(** * Verification of [get_flags/asyncio_version.py]

    A shallow embedding of the bounded-concurrency flag downloader:
    [get_flag], [get_country], [download_one] and [supervisor], with the
    asyncio event loop modelled as a nondeterministic step relation over a
    world holding the semaphore counter, one task per key, the files saved
    by [save_flag] and the state of the supervisor's draining loop.

    Strings are modelled as Rocq [string]s of ASCII characters; Python's
    [str.lower] is modelled on ASCII letters. The [verbose] flag only
    selects between per-item printing and the [tqdm] progress bar; neither
    output is modelled. *)

From Stdlib Require Import String Ascii List ZArith Lia Permutation Bool.
Import ListNotations.
Open Scope string_scope.

(** ** Python helpers *)

(** [str.lower], on ASCII characters. *)
Definition lower_ascii (c : ascii) : ascii :=
  let n := nat_of_ascii c in
  if (65 <=? n)%nat && (n <=? 90)%nat then ascii_of_nat (n + 32)%nat else c.

Fixpoint lower (s : string) : string :=
  match s with
  | EmptyString => EmptyString
  | String c s' => String (lower_ascii c) (lower s')
  end.

(** [s.replace(" ", "_")]. *)
Fixpoint replace_space (s : string) : string :=
  match s with
  | EmptyString => EmptyString
  | String c s' =>
      String (if Ascii.eqb c " "%char then "_"%char else c) (replace_space s')
  end.

(** [sorted(cc_list)]: Python compares strings by code point, which on
    ASCII strings is [String.compare]; an insertion sort. *)
Fixpoint insert_sorted (x : string) (l : list string) : list string :=
  match l with
  | [] => [x]
  | y :: l' =>
      match String.compare x y with
      | Gt => y :: insert_sorted x l'
      | _ => x :: l
      end
  end.

Fixpoint sorted (l : list string) : list string :=
  match l with
  | [] => []
  | x :: l' => insert_sorted x (sorted l')
  end.

(** ** Data model *)

(** Modelled from the spec: [DownloadStatus] is imported from [common.py],
    which is not part of the sources; the spec describes it as the closed
    enumeration OK, NOT_FOUND, ERROR. *)
Inductive DownloadStatus := OK | NOT_FOUND | ERROR.

(** The exceptions that reach the code: [httpx.HTTPStatusError] (raised by
    [raise_for_status], carrying the status code and the request URL),
    [httpx.RequestError] (transport errors: connection, timeout) and
    [KeyError] (a missing key in a dict or in a [str.format] call), and the
    two [BaseException]s a Ctrl-C can produce inside the event loop:
    [KeyboardInterrupt] and [asyncio.CancelledError]. *)
Inductive exn :=
| HTTPStatusError (status_code : Z) (url : string)
| RequestError (url : string)
| KeyError (key : string)
| KeyboardInterrupt
| CancelledError.

(** An HTTP response, as far as the code reads it: the status code, the
    body and the ["country"] field of the body parsed as JSON (if any). *)
Record response := mk_response {
  status_code : Z;
  content : string;
  json_country : option string
}.

(** Result of a Python computation that may raise. *)
Inductive py (A : Type) := PyOk (a : A) | PyErr (e : exn).
Arguments PyOk {A} a.
Arguments PyErr {A} e.

(** [resp.raise_for_status()]: httpx raises unless the status is 2xx. *)
Definition is_success (code : Z) : bool := (200 <=? code)%Z && (code <? 300)%Z.

(** The remote server: [client.get(url)] either answers or fails in
    transport ([None]). *)
Definition remote_fn := string -> option response.

(** [client.get(url)] followed by [resp.raise_for_status()]. *)
Definition http_get (remote : remote_fn) (url : string) : py response :=
  match remote url with
  | None => PyErr (RequestError url)
  | Some resp =>
      if is_success (status_code resp) then PyOk resp
      else PyErr (HTTPStatusError (status_code resp) url)
  end.

(** ** [get_flag] and [get_country] *)

Definition flag_url (base_url cc : string) : string :=
  lower (base_url ++ "/" ++ cc ++ "/" ++ cc ++ ".gif").

Definition metadata_url (base_url cc : string) : string :=
  lower (base_url ++ "/" ++ cc ++ "/metadata.json").

Definition get_flag (remote : remote_fn) (base_url cc : string) : py string :=
  match http_get remote (flag_url base_url cc) with
  | PyOk resp => PyOk (content resp)
  | PyErr e => PyErr e
  end.

Definition get_country (remote : remote_fn) (base_url cc : string) : py string :=
  match http_get remote (metadata_url base_url cc) with
  | PyOk resp =>
      match json_country resp with
      | Some c => PyOk c
      | None => PyErr (KeyError "country")
      end
  | PyErr e => PyErr e
  end.

(** ** [download_one] *)

(** How a call of [download_one] ends: it returns a status (with the
    message it prints when verbose) or it raises. *)
Inductive task_result :=
| Returned (status : DownloadStatus) (msg : string)
| Raised (e : exn).

(** The [except httpx.HTTPStatusError] clause of [download_one]; any other
    exception is not caught and leaves the coroutine unchanged. *)
Definition download_one_except (e : exn) : task_result :=
  match e with
  | HTTPStatusError code url =>
      if (code =? 404)%Z then Returned NOT_FOUND ("not found: " ++ url)
      else Raised e
  | _ => Raised e
  end.

(** The file name passed to [save_flag]. *)
Definition flag_filename (country : string) : string :=
  replace_space country ++ ".gif".

(** [download_one] run on its own: its result and the calls made to
    [save_flag] (file name, image), in order. The semaphore only delays the
    two fetches; its effect is modelled by [task_step] below. *)
Definition download_one (remote : remote_fn) (cc base_url : string)
  : task_result * list (string * string) :=
  match get_flag remote base_url cc with
  | PyErr e => (download_one_except e, [])
  | PyOk image =>
      match get_country remote base_url cc with
      | PyErr e => (download_one_except e, [])
      | PyOk country => (Returned OK "OK", [(flag_filename country, image)])
      end
  end.

(** ** [supervisor]'s counter and draining loop *)

(** A [Counter[DownloadStatus]]. *)
Record Counts := mk_counts { c_ok : nat; c_not_found : nat; c_error : nat }.

Definition counts0 : Counts := mk_counts 0 0 0.

(** [counter[status] += 1]. *)
Definition incr (c : Counts) (s : DownloadStatus) : Counts :=
  match s with
  | OK => mk_counts (S (c_ok c)) (c_not_found c) (c_error c)
  | NOT_FOUND => mk_counts (c_ok c) (S (c_not_found c)) (c_error c)
  | ERROR => mk_counts (c_ok c) (c_not_found c) (S (c_error c))
  end.

(** [sum(counter.values())]. *)
Definition total (c : Counts) : nat := c_ok c + c_not_found c + c_error c.

(** [str.format] with keyword arguments: the first replacement field whose name is not a
    keyword argument raises [KeyError] with that name. *)
Definition py_format_fields (fields kwargs : list string) : option string :=
  find (fun f => negb (existsb (String.eqb f) kwargs)) fields.

(** [error_msg.format(res=exc.response)] where [error_msg] is
    ["HTTP error {resp.status_code} - {resp.reason_phrase}"]: the fields name
    [resp], the only keyword argument is [res]. *)
Definition format_error_msg : py string :=
  match py_format_fields ["resp"; "resp"] ["res"] with
  | Some f => PyErr (KeyError f)
  | None => PyOk "HTTP error"
  end.

(** The supervisor: draining with the current [error] variable and
    [counter], or done (returned the counter, or raised). *)
Inductive sup_state :=
| Draining (error : option exn) (counter : Counts)
| SupReturn (counter : Counts)
| SupRaise (e : exn).

(** One iteration of [for coro in to_do_iter] whose [await coro] delivered
    the task result [r] (lines 113-131). *)
Definition drain_one (error : option exn) (counter : Counts) (r : task_result)
  : sup_state :=
  match r with
  | Raised (HTTPStatusError _ _ as exc) =>
      match format_error_msg with
      | PyErr ke => SupRaise ke
      | PyOk _ => Draining (Some exc) (incr counter ERROR)
      end
  | Raised e => SupRaise e
  | Returned status _ =>
      let status := match error with Some _ => ERROR | None => status end in
      Draining error (incr counter status)
  end.

(** ** The event loop *)

(** Where a [download_one] coroutine is. *)
Inductive tstate :=
| TInit                          (* created, waiting at the first [async with semaphore] *)
| TFlag                          (* holding the semaphore, awaiting [get_flag] *)
| TGotFlag (image : string)      (* released it; waiting at the second [async with] *)
| TCountry (image : string)      (* holding the semaphore, awaiting [get_country] *)
| TSave (image filename : string) (* awaiting [asyncio.to_thread(save_flag, ...)] *)
| TDone (r : task_result).       (* finished *)

(** One task of [to_do]: its key, where it is, and whether the draining
    loop has consumed it. *)
Record task := mk_task { t_key : string; t_st : tstate; t_drained : bool }.

(** The semaphore's counter, the tasks, the calls made to [save_flag] and
    the supervisor. *)
Record world := mk_world {
  w_gate : nat;
  w_tasks : list task;
  w_saved : list (string * string);
  w_sup : sup_state
}.

Section Run.

Variable remote : remote_fn.
Variable base_url : string.

(** One move of the coroutine of key [cc] when the semaphore counter is
    [gate]: the new counter, the new position and the [save_flag] calls.
    Acquiring blocks ([None]) while the counter is 0; leaving an
    [async with] block releases, whether the fetch returned or raised. *)
Definition task_step (cc : string) (gate : nat) (st : tstate)
  : option (nat * tstate * list (string * string)) :=
  match st with
  | TInit => if Nat.ltb 0 gate then Some (pred gate, TFlag, []) else None
  | TFlag =>
      Some (S gate,
            match get_flag remote base_url cc with
            | PyOk image => TGotFlag image
            | PyErr e => TDone (download_one_except e)
            end, [])
  | TGotFlag image =>
      if Nat.ltb 0 gate then Some (pred gate, TCountry image, []) else None
  | TCountry image =>
      Some (S gate,
            match get_country remote base_url cc with
            | PyOk country => TSave image (flag_filename country)
            | PyErr e => TDone (download_one_except e)
            end, [])
  | TSave image filename =>
      Some (gate, TDone (Returned OK "OK"), [(filename, image)])
  | TDone _ => None
  end.

(** The scheduler runs any task that can move, or lets the supervisor
    consume any finished task not yet consumed ([as_completed] yields the
    tasks in the order they finish), or ends the loop once every task has
    been consumed. *)
Inductive step : world -> world -> Prop :=
| step_task g pre t post sv sup g' st' out :
    task_step (t_key t) g (t_st t) = Some (g', st', out) ->
    step (mk_world g (pre ++ t :: post) sv sup)
         (mk_world g' (pre ++ mk_task (t_key t) st' (t_drained t) :: post)
                   (sv ++ out) sup)
| step_drain g pre t post sv err cnt r :
    t_st t = TDone r ->
    t_drained t = false ->
    step (mk_world g (pre ++ t :: post) sv (Draining err cnt))
         (mk_world g (pre ++ mk_task (t_key t) (t_st t) true :: post) sv
                   (drain_one err cnt r))
| step_exhausted g ts sv err cnt :
    forallb t_drained ts = true ->
    step (mk_world g ts sv (Draining err cnt))
         (mk_world g ts sv (SupReturn cnt)).

(** The handlers around [await coro] (lines 113-126) when the await
    raises the [BaseException] [e] instead of delivering a result:
    [except httpx.HTTPStatusError] does not match it,
    [except KeyboardInterrupt: break] leaves the loop and the supervisor
    returns its counter; anything else propagates out of the supervisor. *)
Definition await_raised (e : exn) (counter : Counts) : sup_state :=
  match e with
  | KeyboardInterrupt => SupReturn counter
  | _ => SupRaise e
  end.

(** The exception a Ctrl-C makes [await coro] raise.  [download_many]
    runs the supervisor under [asyncio.run], whose SIGINT handler
    (Python 3.11+) cancels the main task: the supervisor, suspended at
    [await coro], receives [asyncio.CancelledError], and [asyncio.run] then
    raises [KeyboardInterrupt] to its caller.  (On 3.9 and 3.10 the
    [KeyboardInterrupt] is raised in the event loop's own code, outside the
    coroutine, and propagates out of [asyncio.run] without reaching the
    handlers; in both cases no counter is returned.) *)
Definition sigint_at_await : exn := CancelledError.

(** A Ctrl-C while the supervisor is suspended at [await coro], which it
    is only while some task has not been consumed yet. *)
Inductive interrupt : world -> world -> Prop :=
| interrupt_drain g ts sv err cnt :
    existsb (fun t => negb (t_drained t)) ts = true ->
    interrupt (mk_world g ts sv (Draining err cnt))
              (mk_world g ts sv (await_raised sigint_at_await cnt)).

Inductive steps : world -> world -> Prop :=
| steps_refl w : steps w w
| steps_cons w1 w2 w3 : step w1 w2 -> steps w2 w3 -> steps w1 w3.

(** [supervisor(cc_list, base_url, verbose, concur_req)] right after it
    created [Semaphore(concur_req)] and one coroutine per key of
    [sorted(cc_list)]. *)
Definition init_world (concur_req : nat) (cc_list : list string) : world :=
  mk_world concur_req
           (map (fun cc => mk_task cc TInit false) (sorted cc_list))
           [] (Draining None counts0).

Definition reachable (concur_req : nat) (cc_list : list string) (w : world) : Prop :=
  steps (init_world concur_req cc_list) w.

(** The supervisor has left the loop: it returned or raised. *)
Definition finished (w : world) : Prop :=
  match w_sup w with Draining _ _ => False | _ => True end.

(** ** A deterministic scheduler, to run the model on concrete inputs *)

Fixpoint first_task_step (g : nat) (ts : list task)
  : option (nat * list task * list (string * string)) :=
  match ts with
  | [] => None
  | t :: ts' =>
      match task_step (t_key t) g (t_st t) with
      | Some (g', st', out) => Some (g', mk_task (t_key t) st' (t_drained t) :: ts', out)
      | None =>
          match first_task_step g ts' with
          | Some (g', ts'', out) => Some (g', t :: ts'', out)
          | None => None
          end
      end
  end.

Fixpoint first_done (ts : list task) : option (task_result * list task) :=
  match ts with
  | [] => None
  | t :: ts' =>
      match t_st t, t_drained t with
      | TDone r, false => Some (r, mk_task (t_key t) (t_st t) true :: ts')
      | _, _ =>
          match first_done ts' with
          | Some (r, ts'') => Some (r, t :: ts'')
          | None => None
          end
      end
  end.

Definition sched (w : world) : option world :=
  match first_task_step (w_gate w) (w_tasks w) with
  | Some (g', ts', out) => Some (mk_world g' ts' (w_saved w ++ out) (w_sup w))
  | None =>
      match w_sup w with
      | Draining err cnt =>
          match first_done (w_tasks w) with
          | Some (r, ts') => Some (mk_world (w_gate w) ts' (w_saved w) (drain_one err cnt r))
          | None =>
              if forallb t_drained (w_tasks w)
              then Some (mk_world (w_gate w) (w_tasks w) (w_saved w) (SupReturn cnt))
              else None
          end
      | _ => None
      end
  end.

Fixpoint run (fuel : nat) (w : world) : world :=
  match fuel with
  | O => w
  | S n => match sched w with Some w' => run n w' | None => w end
  end.

End Run.

(** ** Quantities the properties talk about *)

(** A coroutine inside one of the two [async with semaphore] blocks. *)
Definition holding (st : tstate) : bool :=
  match st with TFlag | TCountry _ => true | _ => false end.

(** The number of current holders of the semaphore. *)
Definition holders (ts : list task) : nat :=
  length (filter (fun t => holding (t_st t)) ts).

Definition is_done (st : tstate) : bool :=
  match st with TDone _ => true | _ => false end.

(** The number of completions the draining loop has consumed. *)
Definition drained_count (ts : list task) : nat :=
  length (filter t_drained ts).

(** The counter as the consumed returned statuses determine it. *)
Definition tally_task (t : task) (c : Counts) : Counts :=
  if t_drained t then
    match t_st t with TDone (Returned s _) => incr c s | _ => c end
  else c.

Definition tally (ts : list task) : Counts := fold_right tally_task counts0 ts.

(** The counter [supervisor] returns, if it returns. *)
Definition returned_counts (w : world) : option Counts :=
  match w_sup w with SupReturn c => Some c | _ => None end.

(** Both fetch stages of key [cc] complete normally: every remote call
    made for [cc] succeeds. *)
Definition fetches_ok (remote : remote_fn) (base_url cc : string) : bool :=
  match get_flag remote base_url cc, get_country remote base_url cc with
  | PyOk _, PyOk _ => true
  | _, _ => false
  end.

(** The exception the supervisor raises when the draining loop consumes a
    task that raised [e0]. *)
Definition supervisor_exn (e0 : exn) : exn :=
  match drain_one None counts0 (Raised e0) with
  | SupRaise e => e
  | _ => e0
  end.

(** The counter a run that consumes every task of [keys] ends with. *)
Definition expected_counts (remote : remote_fn) (base_url : string)
  (keys : list string) : Counts :=
  fold_right (fun cc c =>
                match fst (download_one remote cc base_url) with
                | Returned s _ => incr c s
                | Raised _ => c
                end) counts0 keys.

(** ** Concrete inputs *)

Definition demo_base : string := "http://flags.example".

(** The scenario of the spec: ["bf"] and ["gh"] are served, the flag of
    ["zz"] answers 404. *)
Definition demo_remote (url : string) : option response :=
  if String.eqb url "http://flags.example/zz/zz.gif" then Some (mk_response 404 "" None)
  else Some (mk_response 200 "GIF89a" (Some "Burkina Faso")).

Definition demo_keys : list string := ["bf"; "gh"; "zz"].

(** A server whose metadata for ["xx"] answers 500. *)
Definition status500_remote (url : string) : option response :=
  if String.eqb url "http://flags.example/xx/metadata.json" then Some (mk_response 500 "" None)
  else Some (mk_response 200 "GIF89a" (Some "Xland")).

(** A server that is unreachable for the flag of ["yy"]. *)
Definition transport_remote (url : string) : option response :=
  if String.eqb url "http://flags.example/yy/yy.gif" then None
  else Some (mk_response 200 "GIF89a" (Some "Yland")).

(** Concrete runs, under the scheduler [run]. *)
Definition demo_partial : world := run demo_remote demo_base 14 (init_world 1 demo_keys).

Definition demo_interrupted : world :=
  mk_world (w_gate demo_partial) (w_tasks demo_partial) (w_saved demo_partial)
           (SupRaise CancelledError).

Definition demo_final : world := run demo_remote demo_base 100 (init_world 2 demo_keys).

Definition dup_keys : list string := ["bf"; "gh"; "bf"].

Definition dup_final : world := run demo_remote demo_base 100 (init_world 2 dup_keys).

(** The invariant of the event loop. *)
Section Invariant.

Variable remote : remote_fn.
Variable base_url : string.

(** Where a task is agrees with what its key's fetches return. *)
Definition task_ok (cc : string) (st : tstate) : Prop :=
  match st with
  | TInit | TFlag => True
  | TGotFlag image | TCountry image => get_flag remote base_url cc = PyOk image
  | TSave image fn =>
      get_flag remote base_url cc = PyOk image /\
      exists country, get_country remote base_url cc = PyOk country /\
                      fn = flag_filename country
  | TDone r => r = fst (download_one remote cc base_url)
  end.

Definition returned_ok (t : task) : Prop :=
  exists s m, t_st t = TDone (Returned s m).

Definition sup_inv (ts : list task) (sup : sup_state) : Prop :=
  match sup with
  | Draining err cnt =>
      err = None /\ cnt = tally ts /\
      Forall (fun t => t_drained t = true -> returned_ok t) ts
  | SupReturn cnt =>
      cnt = tally ts /\ Forall (fun t => t_drained t = true /\ returned_ok t) ts
  | SupRaise e =>
      exists t e0, In t ts /\ t_st t = TDone (Raised e0) /\ e = supervisor_exn e0
  end.

Definition inv (concur_req : nat) (cc_list : list string) (w : world) : Prop :=
  w_gate w + holders (w_tasks w) = concur_req /\
  map t_key (w_tasks w) = sorted cc_list /\
  Forall (fun t => task_ok (t_key t) (t_st t) /\
                   (t_drained t = true -> is_done (t_st t) = true)) (w_tasks w) /\
  sup_inv (w_tasks w) (w_sup w).

End Invariant.

(** Any run, with or without an interrupt of the draining loop. *)
Inductive steps_i (remote : remote_fn) (base_url : string) : world -> world -> Prop :=
| steps_i_refl w : steps_i remote base_url w w
| steps_i_step w1 w2 w3 :
    step remote base_url w1 w2 -> steps_i remote base_url w2 w3 ->
    steps_i remote base_url w1 w3
| steps_i_interrupt w1 w2 w3 :
    interrupt w1 w2 -> steps_i remote base_url w2 w3 ->
    steps_i remote base_url w1 w3.

(** The [save_flag] calls a task has made: those of its [download_one]
    once it has returned OK (the call is its last move). *)
Definition task_saves (remote : remote_fn) (base_url : string) (t : task)
  : list (string * string) :=
  match t_st t with
  | TDone (Returned OK _) => snd (download_one remote (t_key t) base_url)
  | _ => []
  end.

(** Moves a task has left before it finishes. *)
Definition task_weight (t : task) : nat :=
  match t_st t with
  | TInit => 5 | TFlag => 4 | TGotFlag _ => 3 | TCountry _ => 2 | TSave _ _ => 1
  | TDone _ => 0
  end + (if t_drained t then 0 else 1).

(** An upper bound on the number of steps a run can still take. *)
Definition world_measure (w : world) : nat :=
  list_sum (map task_weight (w_tasks w)) +
  match w_sup w with Draining _ _ => 1 | _ => 0 end.

(** The exception the supervisor lets escape for a task that raised [e0]:
    a status error is replaced by the [KeyError] of the handler's
    [str.format] call, anything else is not caught. *)
Definition escaping_exn (e0 : exn) : exn :=
  match e0 with
  | HTTPStatusError _ _ => KeyError "resp"
  | _ => e0
  end.

(** * Proofs *)

Section Proofs.

Local Open Scope list_scope.

Variable remote : remote_fn.
Variable base_url : string.

Local Abbreviation step := (step remote base_url).
Local Abbreviation steps := (steps remote base_url).
Local Abbreviation task_step := (task_step remote base_url).
Local Abbreviation reachable := (reachable remote base_url).

(** ** The scheduler takes steps of the model *)

Lemma first_task_step_split g ts g' ts' out :
  first_task_step remote base_url g ts = Some (g', ts', out) ->
  exists pre t post st',
    ts = pre ++ t :: post /\
    task_step (t_key t) g (t_st t) = Some (g', st', out) /\
    ts' = pre ++ mk_task (t_key t) st' (t_drained t) :: post.
Proof.
  revert ts'. induction ts as [|t ts IH]; intros ts' H; simpl in H; [discriminate|].
  destruct (task_step (t_key t) g (t_st t)) as [[[g1 st1] o1]|] eqn:E.
  - injection H as <- <- <-. exists [], t, ts, st1. auto.
  - destruct (first_task_step remote base_url g ts) as [[[g1 ts1] o1]|] eqn:E2;
      [|discriminate].
    injection H as <- <- <-.
    destruct (IH ts1 eq_refl) as (pre & t' & post & st' & -> & Hs & ->).
    exists (t :: pre), t', post, st'. auto.
Qed.

Lemma first_done_split ts r ts' :
  first_done ts = Some (r, ts') ->
  exists pre t post,
    ts = pre ++ t :: post /\ t_st t = TDone r /\ t_drained t = false /\
    ts' = pre ++ mk_task (t_key t) (t_st t) true :: post.
Proof.
  revert ts'. induction ts as [|t ts IH]; intros ts' H; simpl in H; [discriminate|].
  destruct (t_st t) eqn:Est, (t_drained t) eqn:Edr;
    try (injection H as <- <-; exists [], t, ts; rewrite Est; auto);
    (destruct (first_done ts) as [[r1 ts1]|] eqn:E2; [|discriminate];
     injection H as <- <-;
     destruct (IH ts1 eq_refl) as (pre & t' & post & -> & H1 & H2 & ->);
     exists (t :: pre), t', post; auto).
Qed.

Lemma sched_step w w' : sched remote base_url w = Some w' -> step w w'.
Proof.
  destruct w as [g ts sv sup]. unfold sched; simpl.
  destruct (first_task_step remote base_url g ts) as [[[g1 ts1] o1]|] eqn:E.
  - intros H; injection H as <-.
    destruct (first_task_step_split _ _ _ _ _ E) as (pre & t & post & st' & -> & Hs & ->).
    now constructor.
  - destruct sup as [err cnt|cnt|e]; try discriminate.
    destruct (first_done ts) as [[r ts2]|] eqn:E2.
    + intros H; injection H as <-.
      destruct (first_done_split _ _ _ E2) as (pre & t & post & -> & H1 & H2 & ->).
      now constructor.
    + destruct (forallb t_drained ts) eqn:E3; [|discriminate].
      intros H; injection H as <-. now constructor.
Qed.

Lemma run_steps n w : steps w (run remote base_url n w).
Proof.
  revert w. induction n as [|n IH]; intros w; simpl; [constructor|].
  destruct (sched remote base_url w) as [w'|] eqn:E; [|constructor].
  econstructor; [apply sched_step; exact E | apply IH].
Qed.

(** ** Bookkeeping on the task list *)

Lemma holders_app l1 l2 : holders (l1 ++ l2) = holders l1 + holders l2.
Proof. unfold holders. now rewrite filter_app, length_app. Qed.

Lemma holders_cons t l :
  holders (t :: l) = (if holding (t_st t) then 1 else 0) + holders l.
Proof. unfold holders; simpl. now destruct (holding (t_st t)). Qed.

Lemma holders_replace pre t t' post :
  t_st t' = t_st t -> holders (pre ++ t' :: post) = holders (pre ++ t :: post).
Proof. intros E. rewrite !holders_app, !holders_cons, E. reflexivity. Qed.

Lemma incr_comm c s1 s2 : incr (incr c s1) s2 = incr (incr c s2) s1.
Proof. destruct s1, s2; reflexivity. Qed.

Lemma tally_task_incr t c s : tally_task t (incr c s) = incr (tally_task t c) s.
Proof.
  unfold tally_task. destruct (t_drained t); [|reflexivity].
  destruct (t_st t) as [| | | | |[s' m|e]]; try reflexivity. apply incr_comm.
Qed.

Lemma fold_tally_incr l c s :
  fold_right tally_task (incr c s) l = incr (fold_right tally_task c l) s.
Proof.
  induction l as [|t l IH]; simpl; [reflexivity|]. now rewrite IH, tally_task_incr.
Qed.

Lemma tally_app l1 l2 : tally (l1 ++ l2) = fold_right tally_task (tally l2) l1.
Proof. unfold tally. now rewrite fold_right_app. Qed.

Lemma tally_undrained_replace pre t t' post :
  t_drained t = false -> t_drained t' = false ->
  tally (pre ++ t' :: post) = tally (pre ++ t :: post).
Proof.
  intros E E'. rewrite !tally_app. f_equal.
  unfold tally; simpl. unfold tally_task. now rewrite E, E'.
Qed.

Lemma tally_drain pre t post s m :
  t_st t = TDone (Returned s m) -> t_drained t = false ->
  tally (pre ++ mk_task (t_key t) (t_st t) true :: post)
  = incr (tally (pre ++ t :: post)) s.
Proof.
  intros Est Edr. rewrite !tally_app, <- fold_tally_incr. f_equal.
  unfold tally; simpl. unfold tally_task; simpl. now rewrite Edr, Est.
Qed.

Lemma tally_undrained l :
  Forall (fun t => t_drained t = false) l -> tally l = counts0.
Proof.
  induction 1 as [|t l Ht _ IH]; [reflexivity|].
  unfold tally in *; simpl. rewrite IH. unfold tally_task. now rewrite Ht.
Qed.

Lemma holders_init l :
  holders (map (fun cc => mk_task cc TInit false) l) = 0.
Proof. induction l as [|x l IH]; [reflexivity|]. now rewrite map_cons, holders_cons. Qed.

Lemma total_tally l :
  Forall (fun t => t_drained t = true -> returned_ok t) l ->
  total (tally l) = drained_count l.
Proof.
  induction 1 as [|t l Ht _ IH]; [reflexivity|].
  unfold drained_count, tally in *; simpl. unfold tally_task at 1.
  destruct (t_drained t).
  - destruct (Ht eq_refl) as (s & m & ->). simpl.
    destruct s; unfold total in *; simpl; lia.
  - exact IH.
Qed.

(** ** One task's moves *)

Lemma task_step_not_done cc g st r :
  task_step cc g st = Some r -> is_done st = false.
Proof. destruct st; simpl; try reflexivity. discriminate. Qed.

Lemma task_step_gate cc g st g' st' out :
  task_step cc g st = Some (g', st', out) ->
  g' + (if holding st' then 1 else 0) = g + (if holding st then 1 else 0).
Proof.
  destruct st as [| |img|img|img fn|r]; simpl.
  - destruct (Nat.ltb_spec 0 g) as [Hg|Hg]; [|discriminate]. intros H; injection H as <- <- <-.
    simpl. lia.
  - intros H; injection H as <- <- <-.
    destruct (get_flag remote base_url cc); simpl; lia.
  - destruct (Nat.ltb_spec 0 g) as [Hg|Hg]; [|discriminate]. intros H; injection H as <- <- <-.
    simpl. lia.
  - intros H; injection H as <- <- <-.
    destruct (get_country remote base_url cc); simpl; lia.
  - intros H; injection H as <- <- <-. simpl. lia.
  - discriminate.
Qed.

Lemma task_step_ok cc g st g' st' out :
  task_ok remote base_url cc st ->
  task_step cc g st = Some (g', st', out) ->
  task_ok remote base_url cc st'.
Proof.
  unfold download_one.
  destruct st as [| |img|img|img fn|r]; simpl; intros Hok.
  - destruct (Nat.ltb 0 g); [|discriminate]. intros H; injection H as <- <- <-. exact I.
  - intros H; injection H as <- <- <-.
    destruct (get_flag remote base_url cc) eqn:E; simpl.
    + exact E.
    + unfold download_one. now rewrite E.
  - destruct (Nat.ltb 0 g); [|discriminate]. intros H; injection H as <- <- <-. exact Hok.
  - intros H; injection H as <- <- <-.
    destruct (get_country remote base_url cc) eqn:E; simpl.
    + split; [exact Hok|]. eauto.
    + unfold download_one. now rewrite Hok, E.
  - intros H; injection H as <- <- <-. simpl.
    destruct Hok as (Hf & c & Hc & ->). unfold download_one. now rewrite Hf, Hc.
  - discriminate.
Qed.

Lemma drain_one_raised err cnt e0 :
  drain_one err cnt (Raised e0) = SupRaise (supervisor_exn e0).
Proof. destruct e0; reflexivity. Qed.

Lemma task_ok_done cc r :
  task_ok remote base_url cc (TDone r) -> r = fst (download_one remote cc base_url).
Proof. exact (fun H => H). Qed.

(** ** The invariant holds on every run without an interrupt *)

Lemma inv_init concur_req cc_list :
  inv remote base_url concur_req cc_list (init_world concur_req cc_list).
Proof.
  unfold inv, init_world; simpl. split; [|split; [|split]].
  - rewrite holders_init. lia.
  - rewrite map_map. apply map_id.
  - apply Forall_forall. intros t Ht. apply in_map_iff in Ht as (cc & <- & _).
    simpl. split; [exact I | discriminate].
  - split; [reflexivity|]. split.
    + symmetry. apply tally_undrained, Forall_forall.
      intros t Ht. apply in_map_iff in Ht as (cc & <- & _). reflexivity.
    + apply Forall_forall. intros t Ht. apply in_map_iff in Ht as (cc & <- & _).
      discriminate.
Qed.

(** Moves of the semaphore counter and the holders balance out. *)
Lemma step_gate w w' :
  step w w' -> w_gate w' + holders (w_tasks w') = w_gate w + holders (w_tasks w).
Proof.
  intros Hs; destruct Hs as [g pre t post sv sup g' st' out Ht
                            | g pre t post sv err cnt r Hr Hd | g ts sv err cnt Hall];
    simpl.
  - apply task_step_gate in Ht. rewrite !holders_app, !holders_cons. simpl. lia.
  - now rewrite (holders_replace pre t).
  - reflexivity.
Qed.

Lemma inv_step concur_req cc_list w w' :
  inv remote base_url concur_req cc_list w -> step w w' ->
  inv remote base_url concur_req cc_list w'.
Proof.
  intros Hinv Hs. unfold inv in *. pose proof (step_gate w w' Hs) as Hg.
  destruct Hinv as (Hgate & Hkeys & Htasks & Hsup).
  destruct Hs as [g pre t post sv sup g' st' out Ht
                 | g pre t post sv err cnt r Hr Hd | g ts sv err cnt Hall];
    simpl in *.
  - (* a task moves *)
    pose proof (task_step_not_done _ _ _ _ Ht) as Hnd.
    apply Forall_app in Htasks as [Hpre Htp]. inversion Htp as [|? ? [Hok Hdone] Hpost]; subst.
    assert (Hdr : t_drained t = false).
    { destruct (t_drained t); [|reflexivity]. rewrite Hdone in Hnd; auto. }
    split; [lia|]. split.
    { rewrite map_app in *. simpl in *. exact Hkeys. }
    split.
    { apply Forall_app. split; [exact Hpre|]. constructor; [|exact Hpost]. simpl.
      split; [eapply task_step_ok; eauto | rewrite Hdr; discriminate]. }
    destruct sup as [err cnt|cnt|e]; simpl in *.
    + destruct Hsup as (-> & -> & Hf). split; [reflexivity|]. split.
      * symmetry. apply tally_undrained_replace; assumption.
      * apply Forall_app in Hf as [Hf1 Hf2]. inversion Hf2; subst.
        apply Forall_app. split; [assumption|]. constructor; [|assumption].
        simpl. rewrite Hdr. discriminate.
    + destruct Hsup as [_ Hf]. apply Forall_app in Hf as [_ Hf2].
      inversion Hf2 as [|? ? [Hd1 _] _]; subst. congruence.
    + destruct Hsup as (t0 & e0 & Hin & Hst & ->). exists t0, e0.
      split; [|split; [exact Hst | reflexivity]].
      apply in_app_iff in Hin as [Hin|[<-|Hin]]; apply in_app_iff.
      * now left.
      * rewrite Hst in Hnd. discriminate.
      * right. now right.
  - (* the supervisor consumes a finished task *)
    apply Forall_app in Htasks as [Hpre Htp]. inversion Htp as [|? ? [Hok Hdone] Hpost]; subst.
    split; [rewrite (holders_replace pre t); [lia|reflexivity]|]. split.
    { rewrite map_app in *. simpl in *. exact Hkeys. }
    split.
    { apply Forall_app. split; [exact Hpre|]. constructor; [|exact Hpost]. simpl.
      split; [exact Hok|]. now rewrite Hr. }
    destruct Hsup as (-> & -> & Hf). apply Forall_app in Hf as [Hf1 Hf2].
    inversion Hf2 as [|? ? _ Hf3]; subst.
    destruct r as [s m|e0].
    + simpl. split; [reflexivity|]. split.
      * symmetry. apply (tally_drain pre t post s m); assumption.
      * apply Forall_app. split; [assumption|]. constructor; [|assumption].
        intros _. exists s, m. simpl. exact Hr.
    + rewrite drain_one_raised. simpl.
      exists (mk_task (t_key t) (t_st t) true), e0. split; [|split; [exact Hr|reflexivity]].
      apply in_app_iff. right. now left.
  - (* the loop is exhausted *)
    split; [lia|]. split; [exact Hkeys|]. split; [exact Htasks|].
    destruct Hsup as (_ & -> & Hf). split; [reflexivity|].
    rewrite forallb_forall in Hall. apply Forall_forall. intros t Hin.
    rewrite Forall_forall in Hf. split; [now apply Hall|]. apply Hf; [exact Hin|].
    now apply Hall.
Qed.

Lemma steps_inv concur_req cc_list w w' :
  inv remote base_url concur_req cc_list w -> steps w w' ->
  inv remote base_url concur_req cc_list w'.
Proof.
  intros H Hs. induction Hs as [w|w1 w2 w3 H12 _ IH]; [exact H|].
  apply IH. eapply inv_step; eauto.
Qed.

Lemma reachable_inv concur_req cc_list w :
  reachable concur_req cc_list w -> inv remote base_url concur_req cc_list w.
Proof. apply steps_inv, inv_init. Qed.

(** Once the supervisor has left the loop, nothing changes its outcome. *)
Lemma step_sup_frozen w w' :
  step w w' -> finished w -> w_sup w' = w_sup w.
Proof.
  intros Hs; destruct Hs; simpl; intros Hf; [reflexivity|contradiction|contradiction].
Qed.

Lemma steps_sup_frozen w w' :
  steps w w' -> finished w -> w_sup w' = w_sup w.
Proof.
  induction 1 as [w|w1 w2 w3 H12 _ IH]; intros Hf; [reflexivity|].
  pose proof (step_sup_frozen _ _ H12 Hf) as E.
  rewrite IH; [exact E|]. unfold finished in *. now rewrite E.
Qed.

Lemma steps_i_sup_frozen w w' :
  steps_i remote base_url w w' -> finished w -> w_sup w' = w_sup w.
Proof.
  induction 1 as [w|w1 w2 w3 H12 _ IH|w1 w2 w3 H12 _ IH]; intros Hf; [reflexivity| |].
  - pose proof (step_sup_frozen _ _ H12 Hf) as E.
    rewrite IH; [exact E|]. unfold finished in *. now rewrite E.
  - destruct H12. contradiction.
Qed.

Lemma steps_snoc w1 w2 w3 : steps w1 w2 -> step w2 w3 -> steps w1 w3.
Proof.
  induction 1 as [w|w1 w2 w2' H12 _ IH]; intros H.
  - econstructor; [exact H|constructor].
  - econstructor; [exact H12|]. now apply IH.
Qed.

(** A run, interrupted or not, either stays a run of the event loop alone,
    or has been interrupted and its supervisor has raised
    [CancelledError]. *)
Lemma steps_i_reachable_or_cancelled concur_req cc_list w1 w2 :
  reachable concur_req cc_list w1 -> steps_i remote base_url w1 w2 ->
  reachable concur_req cc_list w2 \/ w_sup w2 = SupRaise CancelledError.
Proof.
  intros Hr Hs. revert Hr.
  induction Hs as [w|w1 w2 w3 H12 _ IH|w1 w2 w3 H12 Hs _]; intros Hr.
  - now left.
  - apply IH. eapply steps_snoc; eauto.
  - right. destruct H12 as [g ts sv err cnt _].
    rewrite (steps_i_sup_frozen _ _ Hs); [reflexivity|exact I].
Qed.

(** ** What a run ends with *)

Lemma insert_sorted_perm x l : Permutation (insert_sorted x l) (x :: l).
Proof.
  induction l as [|y l IH]; simpl; [reflexivity|].
  destruct (String.compare x y); try reflexivity.
  rewrite IH. apply perm_swap.
Qed.

Lemma sorted_perm l : Permutation (sorted l) l.
Proof.
  induction l as [|x l IH]; simpl; [reflexivity|].
  rewrite insert_sorted_perm. now apply perm_skip.
Qed.

Lemma tally_all_done ts :
  Forall (fun t => t_drained t = true /\ returned_ok t) ts ->
  Forall (fun t => task_ok remote base_url (t_key t) (t_st t)) ts ->
  tally ts = expected_counts remote base_url (map t_key ts).
Proof.
  induction ts as [|t ts IH]; intros H1 H2; [reflexivity|].
  inversion H1 as [|? ? [Hd (s & m & Hs)] H1']; inversion H2 as [|? ? Hok H2']; subst.
  unfold tally in *; simpl. rewrite IH by assumption.
  rewrite Hs in Hok. simpl in Hok. rewrite <- Hok.
  unfold tally_task. now rewrite Hd, Hs.
Qed.

Lemma inv_task_ok concur_req cc_list w :
  inv remote base_url concur_req cc_list w ->
  Forall (fun t => task_ok remote base_url (t_key t) (t_st t)) (w_tasks w).
Proof.
  intros (_ & _ & H & _). eapply Forall_impl; [|exact H]. now intros t [? _].
Qed.

Lemma inv_return concur_req cc_list w cnt :
  inv remote base_url concur_req cc_list w -> w_sup w = SupReturn cnt ->
  cnt = expected_counts remote base_url (sorted cc_list) /\
  forall cc, In cc cc_list ->
    exists s m, fst (download_one remote cc base_url) = Returned s m.
Proof.
  intros Hinv Hw. pose proof (inv_task_ok _ _ _ Hinv) as Hok.
  destruct Hinv as (_ & Hkeys & _ & Hsup). rewrite Hw in Hsup. destruct Hsup as [-> Hf].
  split.
  - rewrite <- Hkeys. now apply tally_all_done.
  - intros cc Hin. rewrite <- (sorted_perm cc_list), <- Hkeys in Hin.
    apply in_map_iff in Hin as (t & <- & Hin).
    rewrite Forall_forall in Hf, Hok.
    destruct (Hf t Hin) as [_ (s & m & Hs)]. specialize (Hok t Hin).
    rewrite Hs in Hok. exists s, m. now rewrite <- Hok.
Qed.

Lemma inv_raise concur_req cc_list w e :
  inv remote base_url concur_req cc_list w -> w_sup w = SupRaise e ->
  exists cc e0, In cc cc_list /\
    fst (download_one remote cc base_url) = Raised e0 /\ e = supervisor_exn e0.
Proof.
  intros Hinv Hw. pose proof (inv_task_ok _ _ _ Hinv) as Hok.
  destruct Hinv as (_ & Hkeys & _ & Hsup). rewrite Hw in Hsup.
  destruct Hsup as (t & e0 & Hin & Hst & ->).
  exists (t_key t), e0. split; [|split; [|reflexivity]].
  - rewrite <- (sorted_perm cc_list), <- Hkeys. now apply in_map.
  - rewrite Forall_forall in Hok. specialize (Hok t Hin). rewrite Hst in Hok.
    symmetry. exact Hok.
Qed.

Lemma fetches_ok_download cc :
  fetches_ok remote base_url cc = true ->
  exists country image,
    download_one remote cc base_url = (Returned OK "OK"%string, [(flag_filename country, image)]).
Proof.
  unfold fetches_ok, download_one.
  destruct (get_flag remote base_url cc) as [image|e]; [|discriminate].
  destruct (get_country remote base_url cc) as [country|e]; [|discriminate].
  intros _. eauto.
Qed.

Lemma expected_counts_all_ok keys :
  Forall (fun cc => fetches_ok remote base_url cc = true) keys ->
  expected_counts remote base_url keys = mk_counts (length keys) 0 0.
Proof.
  induction 1 as [|cc keys Hcc _ IH]; [reflexivity|].
  simpl. destruct (fetches_ok_download cc Hcc) as (country & image & ->). simpl.
  now rewrite IH.
Qed.

Lemma gate_steps_i concur_req cc_list w :
  steps_i remote base_url (init_world concur_req cc_list) w ->
  w_gate w + holders (w_tasks w) = concur_req.
Proof.
  assert (H0 : w_gate (init_world concur_req cc_list)
               + holders (w_tasks (init_world concur_req cc_list)) = concur_req).
  { simpl. rewrite holders_init. lia. }
  revert H0. generalize (init_world concur_req cc_list).
  intros w0 H0 Hs. induction Hs as [w|w1 w2 w3 H12 _ IH|w1 w2 w3 H12 _ IH].
  - exact H0.
  - apply IH. rewrite (step_gate _ _ H12). exact H0.
  - apply IH. destruct H12. exact H0.
Qed.

(** The supervisor never counts an [ERROR]: its [error] variable is never
    set, since the handler that would set it raises first. *)
Lemma supervisor_never_counts_error concur_req cc_list w cnt :
  reachable concur_req cc_list w -> returned_counts w = Some cnt -> c_error cnt = 0.
Proof.
  intros Hr Hw. apply reachable_inv in Hr. unfold returned_counts in Hw.
  destruct (w_sup w) eqn:E; try discriminate. injection Hw as <-.
  destruct (inv_return _ _ _ _ Hr E) as [-> Hall].
  assert (Forall (fun cc => exists s m, fst (download_one remote cc base_url) = Returned s m)
                 (sorted cc_list)) as Hs.
  { apply Forall_forall. intros cc Hin. apply Hall.
    now rewrite <- (sorted_perm cc_list). }
  clear Hall E Hr. induction Hs as [|cc l (s & m & Hcc) _ IH]; [reflexivity|].
  simpl. rewrite Hcc. unfold download_one in Hcc.
  destruct (get_flag remote base_url cc);
    [destruct (get_country remote base_url cc)|]; simpl in Hcc;
    try (injection Hcc as <- _; exact IH);
    match goal with
    | H : download_one_except ?e = _ |- _ =>
        destruct e as [code url| | | |]; simpl in H; try discriminate;
        destruct (code =? 404)%Z; [injection H as <- _; exact IH | discriminate]
    end.
Qed.

(** ** Properties of the program *)

(** C2: whenever the draining loop consumes a task that returned a status
    normally, it adds one to the counter at exactly that status, whatever
    the run consumed before: in every reachable state the loop's [error]
    variable is still [None]. *)
Theorem drain_returned_counts_status concur_req cc_list w err cnt s m :
  reachable concur_req cc_list w ->
  w_sup w = Draining err cnt ->
  drain_one err cnt (Returned s m) = Draining err (incr cnt s).
Proof.
  intros Hr Hw. apply reachable_inv in Hr.
  destruct Hr as (_ & _ & _ & Hsup). rewrite Hw in Hsup.
  destruct Hsup as (-> & _ & _). reflexivity.
Qed.

(** C3: when the flag request, or the metadata request after a successful
    flag request, answers 404, [download_one] returns NOT_FOUND with the
    message ["not found: <url>"] for the failing URL, raises nothing and
    calls [save_flag] for nothing. *)
Theorem download_one_not_found cc failing_url :
  ((exists r, remote (flag_url base_url cc) = Some r /\ status_code r = 404%Z) /\
   failing_url = flag_url base_url cc) \/
  ((exists r1, remote (flag_url base_url cc) = Some r1 /\
               is_success (status_code r1) = true) /\
   (exists r2, remote (metadata_url base_url cc) = Some r2 /\ status_code r2 = 404%Z) /\
   failing_url = metadata_url base_url cc) ->
  download_one remote cc base_url
  = (Returned NOT_FOUND ("not found: " ++ failing_url)%string, []).
Proof.
  unfold download_one, get_flag, get_country, http_get.
  intros [[(r & Hr & Hc) ->]|[(r1 & Hr1 & Hs1) [(r2 & Hr2 & Hc2) ->]]].
  - rewrite Hr, Hc. reflexivity.
  - rewrite Hr1, Hs1, Hr2, Hc2. reflexivity.
Qed.

Lemma all_ok_finished concur_req cc_list w :
  Forall (fun cc => fetches_ok remote base_url cc = true) cc_list ->
  reachable concur_req cc_list w ->
  finished w ->
  w_sup w = SupReturn (mk_counts (length cc_list) 0 0).
Proof.
  intros Hok Hr Hf. apply reachable_inv in Hr. unfold finished in Hf.
  destruct (w_sup w) as [err cnt|cnt|e] eqn:E; [contradiction| |].
  - destruct (inv_return _ _ _ _ Hr E) as [-> _].
    rewrite expected_counts_all_ok.
    + now rewrite (Permutation_length (sorted_perm cc_list)).
    + apply Forall_forall. intros cc Hin. rewrite Forall_forall in Hok.
      apply Hok. now rewrite <- (sorted_perm cc_list).
  - destruct (inv_raise _ _ _ _ Hr E) as (cc & e0 & Hin & Hcc & _).
    rewrite Forall_forall in Hok.
    destruct (fetches_ok_download cc (Hok cc Hin)) as (c & i & Hd).
    rewrite Hd in Hcc. discriminate.
Qed.

(** C4: when both fetch stages of every key succeed, a run that leaves the
    loop returns a counter with one OK per key and nothing else, so its
    values sum to the number of keys. *)
Theorem supervisor_all_ok_total concur_req cc_list w :
  Forall (fun cc => fetches_ok remote base_url cc = true) cc_list ->
  reachable concur_req cc_list w ->
  finished w ->
  exists cnt, w_sup w = SupReturn cnt /\
              cnt = mk_counts (length cc_list) 0 0 /\
              total cnt = length cc_list.
Proof.
  intros Hok Hr Hf. rewrite (all_ok_finished _ _ _ Hok Hr Hf).
  eexists. split; [reflexivity|]. split; [reflexivity|]. unfold total; simpl. lia.
Qed.

(** C5: at every point of every run, interrupted or not, at most
    [concur_req] coroutines hold the semaphore. *)
Theorem semaphore_holders_bounded concur_req cc_list w :
  steps_i remote base_url (init_world concur_req cc_list) w ->
  holders (w_tasks w) <= concur_req.
Proof. intros H. apply gate_steps_i in H. lia. Qed.

(** C7: a Ctrl-C while the supervisor waits at [await coro] does not
    make it return the counter accumulated so far: under [asyncio.run] the
    await raises [CancelledError], which [except KeyboardInterrupt] does not
    catch, so the supervisor raises, and nothing the remaining tasks do
    changes that; no counter is ever returned by an interrupted run. *)
Theorem interrupt_returns_no_counter concur_req cc_list w0 w1 w2 :
  steps_i remote base_url (init_world concur_req cc_list) w0 ->
  interrupt w0 w1 ->
  steps_i remote base_url w1 w2 ->
  w_sup w2 = SupRaise CancelledError /\ returned_counts w2 = None.
Proof.
  intros _ Hi Hs. destruct Hi as [g ts sv err cnt _].
  unfold returned_counts.
  rewrite (steps_i_sup_frozen _ _ Hs); [split; reflexivity|exact I].
Qed.

(** C8: two runs on the same keys and server, with any two concurrency
    limits and any schedules, that both leave the loop without an
    interrupt, return the same counter, or both raise. *)
Theorem supervisor_counts_independent_of_concurrency cc_list c1 c2 w1 w2 :
  reachable c1 cc_list w1 -> reachable c2 cc_list w2 ->
  finished w1 -> finished w2 ->
  returned_counts w1 = returned_counts w2.
Proof.
  intros H1 H2 F1 F2. apply reachable_inv in H1, H2.
  unfold finished, returned_counts in *.
  destruct (w_sup w1) as [? ?|cnt1|e1] eqn:E1; [contradiction| |];
    destruct (w_sup w2) as [? ?|cnt2|e2] eqn:E2; try contradiction.
  - destruct (inv_return _ _ _ _ H1 E1) as [-> _].
    destruct (inv_return _ _ _ _ H2 E2) as [-> _]. reflexivity.
  - destruct (inv_return _ _ _ _ H1 E1) as [_ Hall].
    destruct (inv_raise _ _ _ _ H2 E2) as (cc & e0 & Hin & Hcc & _).
    destruct (Hall cc Hin) as (s & m & Hs). congruence.
  - destruct (inv_return _ _ _ _ H2 E2) as [_ Hall].
    destruct (inv_raise _ _ _ _ H1 E1) as (cc & e0 & Hin & Hcc & _).
    destruct (Hall cc Hin) as (s & m & Hs). congruence.
  - reflexivity.
Qed.

(** C9: each [async with semaphore] releases when its fetch ends, normally
    or by an exception: at every point the counter plus the holders is
    [concur_req], so once every task has finished the counter is back to
    [concur_req]. *)
Theorem semaphore_released concur_req cc_list w :
  steps_i remote base_url (init_world concur_req cc_list) w ->
  w_gate w + holders (w_tasks w) = concur_req /\
  (forallb (fun t => is_done (t_st t)) (w_tasks w) = true -> w_gate w = concur_req).
Proof.
  intros H. apply gate_steps_i in H. split; [exact H|].
  intros Hall. assert (holders (w_tasks w) = 0) as H0.
  { unfold holders. rewrite forallb_forall in Hall.
    erewrite filter_ext_in; [apply length_zero_iff_nil, filter_false|].
    intros t Hin. specialize (Hall t Hin). destruct (t_st t); simpl in *; congruence. }
  lia.
Qed.

(** C10: the supervisor creates one task per occurrence of a key, duplicates
    included, and when every fetch succeeds a run that leaves the loop
    counts every occurrence. *)
Theorem supervisor_one_task_per_occurrence concur_req cc_list w :
  reachable concur_req cc_list w ->
  Permutation (map t_key (w_tasks w)) cc_list /\
  (Forall (fun cc => fetches_ok remote base_url cc = true) cc_list ->
   forall cnt, returned_counts w = Some cnt -> total cnt = length cc_list).
Proof.
  intros Hr. pose proof (reachable_inv _ _ _ Hr) as Hinv. split.
  - destruct Hinv as (_ & -> & _). apply sorted_perm.
  - intros Hok cnt Hw. unfold returned_counts in Hw.
    destruct (w_sup w) eqn:E; try discriminate. injection Hw as <-.
    rewrite (all_ok_finished _ _ _ Hok Hr) in E; [|unfold finished; now rewrite E].
    injection E as <-. unfold total; simpl. lia.
Qed.

End Proofs.

Lemma steps_steps_i remote base_url w w' :
  steps remote base_url w w' -> steps_i remote base_url w w'.
Proof.
  induction 1 as [w|w1 w2 w3 H12 _ IH]; [constructor|].
  eapply steps_i_step; eauto.
Qed.

Lemma interrupt_at w err cnt :
  w_sup w = Draining err cnt ->
  existsb (fun t => negb (t_drained t)) (w_tasks w) = true ->
  interrupt w (mk_world (w_gate w) (w_tasks w) (w_saved w) (SupRaise CancelledError)).
Proof. destruct w; simpl; intros -> H. exact (interrupt_drain _ _ _ _ _ H). Qed.

Lemma lower_app s1 s2 : lower (s1 ++ s2) = (lower s1 ++ lower s2)%string.
Proof. induction s1 as [|c s1 IH]; simpl; [reflexivity|]. now rewrite IH. Qed.

(** The scenario of the spec: keys ["bf"; "gh"; "zz"], capacity 2, the
    flag of ["zz"] answers 404. *)
Example demo_scenario :
  returned_counts (run demo_remote demo_base 100 (init_world 2 demo_keys))
  = Some (mk_counts 2 1 0).
Proof. vm_compute. reflexivity. Qed.

(** No key, no fetch: the counter is empty. *)
Example empty_scenario :
  run demo_remote demo_base 100 (init_world 3 [])
  = mk_world 3 [] [] (SupReturn counts0).
Proof. vm_compute. reflexivity. Qed.

(** C6 (as the code does it): the flag is requested at
    [lower(base/cc/cc.gif)] and the metadata at
    [lower(base/cc/metadata.json)]; the whole URL is lowercased, the base
    location as well as the key. *)
Theorem fetch_urls_lowercased base_url cc :
  flag_url base_url cc
  = (lower base_url ++ "/" ++ lower cc ++ "/" ++ lower cc ++ ".gif")%string /\
  metadata_url base_url cc
  = (lower base_url ++ "/" ++ lower cc ++ "/metadata.json")%string.
Proof. unfold flag_url, metadata_url. rewrite !lower_app. split; reflexivity. Qed.

(** C6 fails as stated: with a base location holding capitals, the flag URL
    is not the base followed by the lowercased key. *)
Lemma fetch_url_lowercases_base :
  flag_url "HTTP://Flags.Example" "BF"
  <> ("HTTP://Flags.Example" ++ "/" ++ lower "BF" ++ "/" ++ lower "BF" ++ ".gif")%string.
Proof. vm_compute. discriminate. Qed.

(** C1: when the metadata of ["xx"] answers 500, [download_one] re-raises
    the [HTTPStatusError], and the supervisor's handler, formatting
    ["HTTP error {resp.status_code} ..."] with [res=], raises
    [KeyError('resp')]: every run that leaves the loop aborts, none counts
    an ERROR. *)
Theorem supervisor_status500_raises concur_req w :
  reachable status500_remote demo_base concur_req ["xx"] w ->
  finished w ->
  w_sup w = SupRaise (KeyError "resp").
Proof.
  intros Hr Hf. apply reachable_inv in Hr. unfold finished in Hf.
  destruct (w_sup w) as [err cnt|cnt|e] eqn:E; [contradiction| |].
  - destruct (inv_return _ _ _ _ _ _ Hr E) as [_ Hall].
    destruct (Hall "xx" (or_introl eq_refl)) as (s & m & Hs).
    vm_compute in Hs. discriminate.
  - destruct (inv_raise _ _ _ _ _ _ Hr E) as (cc & e0 & [<-|[]] & Hcc & ->).
    vm_compute in Hcc. injection Hcc as <-. reflexivity.
Qed.

(** A transport error is not caught by the supervisor either: it aborts the
    run. *)
Lemma supervisor_transport_error_raises concur_req w :
  reachable transport_remote demo_base concur_req ["yy"] w ->
  finished w ->
  w_sup w = SupRaise (RequestError "http://flags.example/yy/yy.gif").
Proof.
  intros Hr Hf. apply reachable_inv in Hr. unfold finished in Hf.
  destruct (w_sup w) as [err cnt|cnt|e] eqn:E; [contradiction| |].
  - destruct (inv_return _ _ _ _ _ _ Hr E) as [_ Hall].
    destruct (Hall "yy" (or_introl eq_refl)) as (s & m & Hs).
    vm_compute in Hs. discriminate.
  - destruct (inv_raise _ _ _ _ _ _ Hr E) as (cc & e0 & [<-|[]] & Hcc & ->).
    vm_compute in Hcc. injection Hcc as <-. reflexivity.
Qed.

(** ** The theorems applied to concrete runs *)

Lemma supervisor_status500_raises_witness :
  w_sup (run status500_remote demo_base 100 (init_world 2 ["xx"]))
  = SupRaise (KeyError "resp").
Proof.
  apply (supervisor_status500_raises 2); [apply run_steps | vm_compute; exact I].
Defined.

Lemma drain_returned_counts_status_witness :
  drain_one None (mk_counts 2 0 0) (Returned NOT_FOUND "not found")
  = Draining None (mk_counts 2 1 0).
Proof.
  apply (drain_returned_counts_status demo_remote demo_base 1 demo_keys demo_partial).
  - apply run_steps.
  - vm_compute. reflexivity.
Defined.

Lemma download_one_not_found_witness :
  download_one demo_remote "zz" demo_base
  = (Returned NOT_FOUND "not found: http://flags.example/zz/zz.gif", []).
Proof.
  apply (download_one_not_found demo_remote demo_base "zz"
           "http://flags.example/zz/zz.gif").
  left. split; [|vm_compute; reflexivity].
  exists (mk_response 404 "" None). split; vm_compute; reflexivity.
Defined.

Lemma supervisor_all_ok_total_witness :
  exists cnt,
    w_sup (run demo_remote demo_base 100 (init_world 2 ["gh"; "bf"])) = SupReturn cnt /\
    cnt = mk_counts 2 0 0 /\ total cnt = 2.
Proof.
  apply (supervisor_all_ok_total demo_remote demo_base 2 ["gh"; "bf"]).
  - repeat constructor.
  - apply run_steps.
  - vm_compute. exact I.
Defined.

Lemma semaphore_holders_bounded_witness :
  holders (w_tasks (run demo_remote demo_base 3 (init_world 2 demo_keys))) <= 2.
Proof.
  apply (semaphore_holders_bounded demo_remote demo_base 2 demo_keys).
  apply steps_steps_i, run_steps.
Defined.

Lemma interrupt_returns_no_counter_witness :
  w_sup demo_interrupted = SupRaise CancelledError /\
  returned_counts demo_interrupted = None.
Proof.
  apply (interrupt_returns_no_counter demo_remote demo_base 1 demo_keys
           demo_partial demo_interrupted demo_interrupted).
  - apply steps_steps_i, run_steps.
  - apply interrupt_at with (err := None) (cnt := mk_counts 2 0 0);
      vm_compute; reflexivity.
  - constructor.
Defined.

Lemma supervisor_counts_independent_of_concurrency_witness :
  returned_counts (run demo_remote demo_base 100 (init_world 1 demo_keys))
  = returned_counts (run demo_remote demo_base 100 (init_world 3 demo_keys)).
Proof.
  apply (supervisor_counts_independent_of_concurrency demo_remote demo_base demo_keys 1 3).
  - apply run_steps.
  - apply run_steps.
  - vm_compute. exact I.
  - vm_compute. exact I.
Defined.

Lemma semaphore_released_witness :
  w_gate demo_final + holders (w_tasks demo_final) = 2 /\
  (forallb (fun t => is_done (t_st t)) (w_tasks demo_final) = true ->
   w_gate demo_final = 2).
Proof.
  apply (semaphore_released demo_remote demo_base 2 demo_keys).
  apply steps_steps_i, run_steps.
Defined.

Lemma supervisor_one_task_per_occurrence_witness :
  Permutation (map t_key (w_tasks dup_final)) dup_keys /\
  (Forall (fun cc => fetches_ok demo_remote demo_base cc = true) dup_keys ->
   forall cnt, returned_counts dup_final = Some cnt -> total cnt = 3).
Proof.
  apply (supervisor_one_task_per_occurrence demo_remote demo_base 2).
  apply run_steps.
Defined.

(** * Further properties of the code *)

Section Extras.

Local Open Scope list_scope.

Variable remote : remote_fn.
Variable base_url : string.

Local Abbreviation step := (step remote base_url).
Local Abbreviation steps := (steps remote base_url).
Local Abbreviation reachable := (reachable remote base_url).

(** ** [download_one] *)

(** [download_one] returns OK exactly when both fetch stages succeed; when
    one fails it calls [save_flag] for nothing; when it raises, it raises
    the exception of the failing stage (the flag's, or the metadata's after
    a successful flag), and never a 404 status error. *)
Theorem download_one_outcomes cc :
  (fst (download_one remote cc base_url) = Returned OK "OK"%string <->
   fetches_ok remote base_url cc = true) /\
  (fetches_ok remote base_url cc = false -> snd (download_one remote cc base_url) = []) /\
  (forall e, fst (download_one remote cc base_url) = Raised e ->
     (get_flag remote base_url cc = PyErr e \/
      exists image, get_flag remote base_url cc = PyOk image /\
                    get_country remote base_url cc = PyErr e) /\
     forall url, e <> HTTPStatusError 404 url).
Proof.
  unfold fetches_ok, download_one.
  assert (Hx : forall e, download_one_except e <> Returned OK "OK"%string /\
                 forall e', download_one_except e = Raised e' ->
                   e' = e /\ forall url, e <> HTTPStatusError 404 url).
  { intros e. destruct e as [code url| | | |]; simpl;
      try (split; [discriminate|intros e' H; injection H as <-; split; [reflexivity|discriminate]]).
    destruct (Z.eqb_spec code 404) as [->|Hne].
    - split; [discriminate|]. intros e' H; discriminate.
    - split; [discriminate|]. intros e' H; injection H as <-. split; [reflexivity|].
      intros u Hu. injection Hu as Hc _. contradiction. }
  destruct (get_flag remote base_url cc) as [image|e] eqn:Ef.
  - destruct (get_country remote base_url cc) as [country|e] eqn:Ec; simpl.
    + split; [tauto|]. split; [discriminate|]. intros e H; discriminate.
    + destruct (Hx e) as [H1 H2]. split; [split; [tauto|discriminate]|]. split; [reflexivity|].
      intros e' He'. destruct (H2 e' He') as [-> H3]. split; [right; eauto|exact H3].
  - destruct (Hx e) as [H1 H2]. simpl. split; [split; [tauto|discriminate]|].
    split; [reflexivity|].
    intros e' He'. destruct (H2 e' He') as [-> H3]. split; [left; reflexivity|exact H3].
Qed.

(** When both stages succeed, [download_one] makes exactly one [save_flag]
    call, with the image and a file name that holds no space and ends in
    [.gif]: the country name with its spaces replaced by underscores. *)
Theorem download_one_saves_flag cc image country :
  get_flag remote base_url cc = PyOk image ->
  get_country remote base_url cc = PyOk country ->
  snd (download_one remote cc base_url) = [(flag_filename country, image)] /\
  ~ In " "%char (list_ascii_of_string (flag_filename country)) /\
  exists stem, flag_filename country = (stem ++ ".gif")%string.
Proof.
  intros Hf Hc. unfold download_one. rewrite Hf, Hc. split; [reflexivity|].
  split; [|eexists; reflexivity].
  unfold flag_filename. clear Hc. induction country as [|a s IH]; simpl.
  - intros [H|[H|[H|[H|[]]]]]; discriminate.
  - intros [H|H]; [|exact (IH H)].
    destruct (Ascii.eqb_spec a " "%char) as [->|Hne]; [discriminate|]. congruence.
Qed.

(** [download_one] does not depend on the metadata when the flag request
    fails: it never asks for it. *)
Theorem download_one_skips_metadata_after_flag_failure remote' cc e :
  remote' (flag_url base_url cc) = remote (flag_url base_url cc) ->
  get_flag remote base_url cc = PyErr e ->
  download_one remote' cc base_url = download_one remote cc base_url.
Proof.
  intros Hr Hf. unfold download_one.
  assert (get_flag remote' base_url cc = get_flag remote base_url cc) as ->.
  { unfold get_flag, http_get. now rewrite Hr. }
  now rewrite Hf.
Qed.

(** ** What the supervisor ends with *)

Lemma expected_counts_perm l l' :
  Permutation l l' -> expected_counts remote base_url l = expected_counts remote base_url l'.
Proof.
  induction 1 as [|x l l' _ IH|x y l|l l' l'' _ IH1 _ IH2]; simpl.
  - reflexivity.
  - now rewrite IH.
  - destruct (fst (download_one remote x base_url)), (fst (download_one remote y base_url));
      try reflexivity. apply incr_comm.
  - congruence.
Qed.

Lemma supervisor_exn_escaping e0 : supervisor_exn e0 = escaping_exn e0.
Proof. destruct e0; reflexivity. Qed.

(** A run without an interrupt that leaves the loop either returns the
    counter of every key's status, in any order of the keys, when no key's
    [download_one] raises; or raises, for a key whose [download_one]
    raised: a status error turns into [KeyError('resp')], any other
    exception escapes unchanged. *)
Theorem supervisor_outcome concur_req cc_list w :
  reachable concur_req cc_list w ->
  finished w ->
  (w_sup w = SupReturn (expected_counts remote base_url cc_list) /\
   forall cc, In cc cc_list ->
     exists s m, fst (download_one remote cc base_url) = Returned s m) \/
  (exists cc e0, In cc cc_list /\ fst (download_one remote cc base_url) = Raised e0 /\
                 w_sup w = SupRaise (escaping_exn e0)).
Proof.
  intros Hr Hf. apply reachable_inv in Hr. unfold finished in Hf.
  destruct (w_sup w) as [err cnt|cnt|e] eqn:E; [contradiction| |].
  - left. destruct (inv_return _ _ _ _ _ _ Hr E) as [-> Hall]. split; [|exact Hall].
    f_equal. apply expected_counts_perm, sorted_perm.
  - right. destruct (inv_raise _ _ _ _ _ _ Hr E) as (cc & e0 & Hin & Hcc & ->).
    exists cc, e0. now rewrite supervisor_exn_escaping.
Qed.

(** ** The [save_flag] calls of a run *)

Lemma download_one_except_not_ok e m : download_one_except e <> Returned OK m.
Proof.
  destruct e as [code url| | | |]; simpl; try discriminate.
  destruct (code =? 404)%Z; discriminate.
Qed.

Lemma task_step_saves cc g st g' st' out d d' :
  task_ok remote base_url cc st ->
  task_step remote base_url cc g st = Some (g', st', out) ->
  task_saves remote base_url (mk_task cc st' d')
  = task_saves remote base_url (mk_task cc st d) ++ out.
Proof.
  unfold task_saves; simpl.
  destruct st as [| |img|img|img fn|r]; simpl; intros Hok.
  - destruct (Nat.ltb 0 g); [|discriminate]. intros H; injection H as <- <- <-. reflexivity.
  - intros H; injection H as <- <- <-.
    destruct (get_flag remote base_url cc); [reflexivity|].
    destruct (download_one_except e) as [[] m|] eqn:E; try reflexivity.
    exfalso. exact (download_one_except_not_ok _ _ E).
  - destruct (Nat.ltb 0 g); [|discriminate]. intros H; injection H as <- <- <-. reflexivity.
  - intros H; injection H as <- <- <-.
    destruct (get_country remote base_url cc); [reflexivity|].
    destruct (download_one_except e) as [[] m|] eqn:E; try reflexivity.
    exfalso. exact (download_one_except_not_ok _ _ E).
  - intros H; injection H as <- <- <-.
    destruct Hok as (Hf & c & Hc & ->). unfold download_one. now rewrite Hf, Hc.
  - discriminate.
Qed.

Lemma saves_step concur_req cc_list w w' :
  inv remote base_url concur_req cc_list w -> step w w' ->
  Permutation (w_saved w) (flat_map (task_saves remote base_url) (w_tasks w)) ->
  Permutation (w_saved w') (flat_map (task_saves remote base_url) (w_tasks w')).
Proof.
  intros Hinv Hs HP. apply inv_task_ok in Hinv.
  destruct Hs as [g pre t post sv sup g' st' out Ht
                 | g pre t post sv err cnt r Hr Hd | g ts sv err cnt Hall];
    simpl in *.
  - rewrite Forall_forall in Hinv.
    assert (Hok : task_ok remote base_url (t_key t) (t_st t)).
    { apply Hinv, in_app_iff. right. now left. }
    rewrite !flat_map_app in *. simpl in *.
    rewrite (task_step_saves _ _ _ _ _ _ (t_drained t) (t_drained t) Hok Ht).
    destruct t as [k st d]. simpl in *.
    rewrite HP, <- !app_assoc.
    apply Permutation_app_head, Permutation_app_head, Permutation_app_comm.
  - rewrite !flat_map_app in *. simpl in *. exact HP.
  - exact HP.
Qed.

Lemma download_one_ok_saves_one cc m :
  fst (download_one remote cc base_url) = Returned OK m ->
  length (snd (download_one remote cc base_url)) = 1.
Proof.
  unfold download_one.
  destruct (get_flag remote base_url cc); [destruct (get_country remote base_url cc)|];
    simpl; intros H; try reflexivity; exfalso; exact (download_one_except_not_ok _ _ H).
Qed.

Lemma saves_count_ok ts :
  Forall (fun t => t_drained t = true /\ returned_ok t) ts ->
  Forall (fun t => task_ok remote base_url (t_key t) (t_st t)) ts ->
  length (flat_map (task_saves remote base_url) ts) = c_ok (tally ts).
Proof.
  induction ts as [|t ts IH]; intros H1 H2; [reflexivity|].
  inversion H1 as [|? ? [Hd (s & m & Hs)] H1']; inversion H2 as [|? ? Hok H2']; subst.
  simpl. rewrite length_app, IH by assumption.
  unfold tally; simpl. unfold tally_task, task_saves. rewrite Hd, Hs.
  rewrite Hs in Hok. simpl in Hok.
  destruct s; simpl; [|reflexivity|reflexivity].
  rewrite (download_one_ok_saves_one (t_key t) m); [reflexivity|now rewrite <- Hok].
Qed.

(** The [save_flag] calls of a run of the event loop are exactly, up to
    order, those of the tasks that have returned OK, one each. *)
Lemma reachable_saves_perm concur_req cc_list w :
  reachable concur_req cc_list w ->
  Permutation (w_saved w) (flat_map (task_saves remote base_url) (w_tasks w)).
Proof.
  intros Hr. unfold reachable in Hr.
  assert (H0 : Permutation (w_saved (init_world concur_req cc_list))
                 (flat_map (task_saves remote base_url)
                    (w_tasks (init_world concur_req cc_list)))).
  { simpl. induction (sorted cc_list) as [|k l IH]; simpl; [constructor|].
    unfold task_saves at 1. simpl. exact IH. }
  pose proof (inv_init remote base_url concur_req cc_list) as Hi.
  revert H0 Hi Hr. generalize (init_world concur_req cc_list).
  intros w0 H0 Hi Hr. revert H0 Hi.
  induction Hr as [w|w1 w2 w3 H12 _ IH]; intros H0 Hi; [exact H0|].
  apply IH; [eapply saves_step; eauto | eapply inv_step; eauto].
Qed.

(** In every run, interrupted or not, that returns a counter, the
    [save_flag] calls made are exactly, up to order, one per task that
    returned OK (the file name and the image of its [download_one]), and
    their number is the counter's OK count. *)
Theorem returned_run_saves_ok_flags concur_req cc_list w cnt :
  steps_i remote base_url (init_world concur_req cc_list) w ->
  returned_counts w = Some cnt ->
  Permutation (w_saved w) (flat_map (task_saves remote base_url) (w_tasks w)) /\
  length (w_saved w) = c_ok cnt.
Proof.
  intros Hs Hw.
  destruct (steps_i_reachable_or_cancelled remote base_url concur_req cc_list _ _
              (steps_refl _ _ _) Hs) as [Hr|Hc];
    [|unfold returned_counts in Hw; rewrite Hc in Hw; discriminate].
  pose proof (reachable_saves_perm _ _ _ Hr) as HP. split; [exact HP|].
  unfold returned_counts in Hw.
  destruct (w_sup w) eqn:E; try discriminate. injection Hw as <-.
  apply reachable_inv in Hr. pose proof (inv_task_ok _ _ _ _ _ Hr) as Hok.
  destruct Hr as (_ & _ & _ & Hsup). rewrite E in Hsup. destruct Hsup as [-> Hf].
  rewrite (Permutation_length HP). now apply saves_count_ok.
Qed.

(** An empty key list: the supervisor creates no task, saves nothing and
    returns the empty counter. *)
Theorem supervisor_empty_list concur_req w :
  reachable concur_req [] w ->
  finished w ->
  w_sup w = SupReturn counts0 /\ w_tasks w = [] /\ w_saved w = [].
Proof.
  intros Hr Hf. pose proof (reachable_saves_perm _ _ _ Hr) as HP.
  apply reachable_inv in Hr.
  assert (Ht : w_tasks w = []).
  { destruct Hr as (_ & Hk & _). simpl in Hk. now apply map_eq_nil in Hk. }
  rewrite Ht in HP. simpl in HP. apply Permutation_sym, Permutation_nil in HP.
  unfold finished in Hf.
  destruct (w_sup w) as [err cnt|cnt|e] eqn:E; [contradiction| |].
  - destruct (inv_return _ _ _ _ _ _ Hr E) as [-> _]. auto.
  - destruct (inv_raise _ _ _ _ _ _ Hr E) as (cc & e0 & [] & _).
Qed.

(** In every run, interrupted or not, whenever the supervisor returns a
    counter its ERROR count is 0: an interrupted run returns none, and the
    [error] variable is never set, since the handler that would set it
    raises first. *)
Theorem supervisor_never_counts_error_any_run concur_req cc_list w cnt :
  steps_i remote base_url (init_world concur_req cc_list) w ->
  returned_counts w = Some cnt -> c_error cnt = 0.
Proof.
  intros Hs Hw.
  destruct (steps_i_reachable_or_cancelled remote base_url concur_req cc_list _ _
              (steps_refl _ _ _) Hs) as [Hr|Hc].
  - exact (supervisor_never_counts_error remote base_url _ _ _ _ Hr Hw).
  - unfold returned_counts in Hw. rewrite Hc in Hw. discriminate.
Qed.

(** ** Termination and blocking *)

Lemma classic_finished w : finished w \/ ~ finished w.
Proof. unfold finished. destruct (w_sup w); tauto. Qed.

Lemma list_sum_weight pre t post :
  list_sum (map task_weight (pre ++ t :: post))
  = list_sum (map task_weight pre) + task_weight t + list_sum (map task_weight post).
Proof. rewrite map_app, list_sum_app. simpl. lia. Qed.

(** Every step shortens what is left of the run: no run is infinite. *)
Lemma step_measure w w' : step w w' -> world_measure w' < world_measure w.
Proof.
  intros Hs; destruct Hs as [g pre t post sv sup g' st' out Ht
                            | g pre t post sv err cnt r Hr Hd | g ts sv err cnt Hall];
    unfold world_measure; simpl; rewrite ?list_sum_weight.
  - assert (task_weight (mk_task (t_key t) st' (t_drained t)) < task_weight t); [|lia].
    unfold task_weight; simpl.
    destruct (t_st t) as [| |img|img|img fn|r]; simpl in Ht.
    + destruct (Nat.ltb 0 g); [|discriminate]. injection Ht as <- <- <-. lia.
    + injection Ht as <- <- <-. destruct (get_flag remote base_url (t_key t)); lia.
    + destruct (Nat.ltb 0 g); [|discriminate]. injection Ht as <- <- <-. lia.
    + injection Ht as <- <- <-. destruct (get_country remote base_url (t_key t)); lia.
    + injection Ht as <- <- <-. lia.
    + discriminate.
  - assert (task_weight (mk_task (t_key t) (t_st t) true) < task_weight t).
    { unfold task_weight; simpl. rewrite Hd. lia. }
    destruct (drain_one err cnt r); lia.
  - lia.
Qed.

Lemma first_task_step_none g ts :
  first_task_step remote base_url g ts = None ->
  Forall (fun t => task_step remote base_url (t_key t) g (t_st t) = None) ts.
Proof.
  induction ts as [|t ts IH]; simpl; [constructor|].
  destruct (task_step remote base_url (t_key t) g (t_st t)) as [[[? ?] ?]|] eqn:E;
    [discriminate|].
  destruct (first_task_step remote base_url g ts) as [[[? ?] ?]|]; [discriminate|].
  intros _. constructor; [exact E|]. now apply IH.
Qed.

Lemma first_done_none ts :
  first_done ts = None -> Forall (fun t => is_done (t_st t) = true -> t_drained t = true) ts.
Proof.
  induction ts as [|t ts IH]; simpl; [constructor|].
  intros H.
  assert (first_done ts = None /\ (is_done (t_st t) = true -> t_drained t = true)) as [H1 H2].
  { revert H. destruct (t_st t), (t_drained t); simpl;
      destruct (first_done ts) as [[? ?]|]; try discriminate; auto. }
  constructor; [exact H2 | now apply IH].
Qed.

Lemma holders_pos ts : 0 < holders ts -> exists t, In t ts /\ holding (t_st t) = true.
Proof.
  unfold holders. destruct (filter (fun t => holding (t_st t)) ts) as [|t l] eqn:E.
  - simpl. lia.
  - intros _. exists t. apply (filter_In (fun t => holding (t_st t))). rewrite E. now left.
Qed.

(** With a positive limit, the scheduler can always move until the
    supervisor has left the loop: no deadlock. *)
Lemma sched_progress concur_req cc_list w :
  inv remote base_url concur_req cc_list w -> 1 <= concur_req -> ~ finished w ->
  sched remote base_url w <> None.
Proof.
  intros Hinv Hc Hnf. destruct w as [g ts sv sup]. unfold sched; simpl.
  destruct (first_task_step remote base_url g ts) as [[[? ?] ?]|] eqn:E1; [discriminate|].
  unfold finished in Hnf; simpl in Hnf.
  destruct sup as [err cnt| |]; [|now contradict Hnf|now contradict Hnf].
  apply first_task_step_none in E1. rewrite Forall_forall in E1.
  destruct Hinv as (Hgate & _). simpl in Hgate.
  assert (Hg : 0 < g).
  { destruct g as [|g]; [|lia]. exfalso.
    destruct (holders_pos ts) as (t & Hin & Hh); [lia|].
    specialize (E1 t Hin). destruct (t_st t); discriminate. }
  assert (Hdone : forall t, In t ts -> is_done (t_st t) = true).
  { intros t Hin. specialize (E1 t Hin). destruct (t_st t); simpl in E1 |- *; try reflexivity;
      try discriminate; destruct (Nat.ltb_spec 0 g); try discriminate; lia. }
  destruct (first_done ts) as [[? ?]|] eqn:E2; [discriminate|].
  apply first_done_none in E2. rewrite Forall_forall in E2.
  assert (forallb t_drained ts = true) as ->; [|discriminate].
  apply forallb_forall. intros t Hin. apply E2, Hdone; exact Hin.
Qed.

(** With [concur_req >= 1], the supervisor always completes, whatever the
    schedule: from any state of a run there is no infinite sequence of
    moves (each one lowers [world_measure]), and a state with no possible
    move is one where the supervisor has returned or raised. *)
Theorem supervisor_completes concur_req cc_list w :
  reachable concur_req cc_list w ->
  1 <= concur_req ->
  Acc (fun w2 w1 => step w1 w2) w /\
  ((forall w', ~ step w w') -> finished w).
Proof.
  intros Hr Hc. split.
  - assert (Hwf : forall n w, world_measure w < n -> Acc (fun w2 w1 => step w1 w2) w).
    { induction n as [|n IH]; intros w0 Hn; [lia|].
      constructor. intros w1 H01. apply IH.
      pose proof (step_measure _ _ H01). lia. }
    apply (Hwf (S (world_measure w))). lia.
  - intros Hstuck. destruct (classic_finished w) as [Hf|Hnf]; [exact Hf|].
    exfalso. apply reachable_inv in Hr.
    destruct (sched remote base_url w) as [w'|] eqn:E.
    + exact (Hstuck w' (sched_step _ _ _ _ E)).
    + exact (sched_progress _ _ _ Hr Hc Hnf E).
Qed.

(** With [concur_req = 0], the semaphore admits nobody: for a non-empty key
    list no task ever fetches and the supervisor never leaves the loop. *)
Theorem supervisor_blocks_without_capacity cc_list w :
  reachable 0 cc_list w ->
  cc_list <> [] ->
  ~ finished w /\ Forall (fun t => t_st t = TInit) (w_tasks w).
Proof.
  intros Hr Hne.
  assert (Hts : w_tasks (init_world 0 cc_list) <> []).
  { simpl. intros H. apply map_eq_nil in H. apply Hne, Permutation_nil.
    rewrite <- H. apply sorted_perm. }
  assert (P : forall w0, steps (init_world 0 cc_list) w0 ->
            w_gate w0 = 0 /\ w_tasks w0 <> [] /\ w_sup w0 = Draining None counts0 /\
            Forall (fun t => t_st t = TInit /\ t_drained t = false) (w_tasks w0)).
  { intros w0 H0.
    assert (I0 : w_gate (init_world 0 cc_list) = 0 /\ w_tasks (init_world 0 cc_list) <> [] /\
                 w_sup (init_world 0 cc_list) = Draining None counts0 /\
                 Forall (fun t => t_st t = TInit /\ t_drained t = false)
                        (w_tasks (init_world 0 cc_list))).
    { split; [reflexivity|]. split; [exact Hts|]. split; [reflexivity|].
      apply Forall_forall. intros t Hin. simpl in Hin.
      apply in_map_iff in Hin as (cc & <- & _). auto. }
    revert I0 H0. generalize (init_world 0 cc_list). intros w1 I0 H0. revert I0.
    induction H0 as [w1|w1 w2 w3 H12 _ IH]; intros I0; [exact I0|]. apply IH.
    destruct I0 as (Hg & Hn & Hsup & Hf).
    destruct H12 as [g pre t post sv sup g' st' out Ht
                    | g pre t post sv err cnt r Hr' Hd | g ts sv err cnt Hall];
      simpl in *.
    - apply Forall_app in Hf as [_ Hf]. inversion Hf as [|? ? [Hst _] _]; subst.
      rewrite Hst in Ht. simpl in Ht. discriminate.
    - apply Forall_app in Hf as [_ Hf]. inversion Hf as [|? ? [Hst _] _]; subst. congruence.
    - exfalso. destruct ts as [|t ts]; [contradiction|]. inversion Hf as [|? ? [_ Hd] _]; subst.
      simpl in Hall. rewrite Hd in Hall. discriminate. }
  destruct (P w Hr) as (_ & _ & Hsup & Hf). split.
  - unfold finished. now rewrite Hsup.
  - eapply Forall_impl; [|exact Hf]. now intros t [? _].
Qed.

End Extras.

(** ** The further properties applied to concrete runs *)

Lemma download_one_saves_flag_witness :
  snd (download_one demo_remote "bf" demo_base)
  = [(flag_filename "Burkina Faso", "GIF89a")] /\
  ~ In " "%char (list_ascii_of_string (flag_filename "Burkina Faso")) /\
  exists stem, flag_filename "Burkina Faso" = (stem ++ ".gif")%string.
Proof.
  apply (download_one_saves_flag demo_remote demo_base "bf"); vm_compute; reflexivity.
Defined.

Lemma download_one_skips_metadata_after_flag_failure_witness :
  download_one (fun u => if String.eqb u "http://flags.example/zz/zz.gif"
                         then Some (mk_response 404 "" None) else None)
               "zz" demo_base
  = download_one demo_remote "zz" demo_base.
Proof.
  apply (download_one_skips_metadata_after_flag_failure demo_remote demo_base _ "zz"
           (HTTPStatusError 404 "http://flags.example/zz/zz.gif")); vm_compute; reflexivity.
Defined.

Lemma supervisor_never_counts_error_any_run_witness :
  c_error (mk_counts 2 1 0) = 0.
Proof.
  apply (supervisor_never_counts_error_any_run demo_remote demo_base 2 demo_keys demo_final).
  - apply steps_steps_i, run_steps.
  - vm_compute. reflexivity.
Defined.

Lemma supervisor_outcome_witness :
  (w_sup demo_final = SupReturn (expected_counts demo_remote demo_base demo_keys) /\
   forall cc, In cc demo_keys ->
     exists s m, fst (download_one demo_remote cc demo_base) = Returned s m) \/
  (exists cc e0, In cc demo_keys /\ fst (download_one demo_remote cc demo_base) = Raised e0 /\
                 w_sup demo_final = SupRaise (escaping_exn e0)).
Proof.
  apply (supervisor_outcome demo_remote demo_base 2).
  - apply run_steps.
  - vm_compute. exact I.
Defined.

Lemma returned_run_saves_ok_flags_witness :
  Permutation (w_saved demo_final) (flat_map (task_saves demo_remote demo_base) (w_tasks demo_final)) /\
  length (w_saved demo_final) = c_ok (mk_counts 2 1 0).
Proof.
  apply (returned_run_saves_ok_flags demo_remote demo_base 2 demo_keys).
  - apply steps_steps_i, run_steps.
  - vm_compute. reflexivity.
Defined.

Lemma supervisor_empty_list_witness :
  let w := run demo_remote demo_base 10 (init_world 2 []) in
  w_sup w = SupReturn counts0 /\ w_tasks w = [] /\ w_saved w = [].
Proof.
  apply (supervisor_empty_list demo_remote demo_base 2).
  - apply run_steps.
  - vm_compute. exact I.
Defined.

Lemma supervisor_completes_witness :
  Acc (fun w2 w1 => step demo_remote demo_base w1 w2) (init_world 2 demo_keys) /\
  ((forall w', ~ step demo_remote demo_base (init_world 2 demo_keys) w') ->
   finished (init_world 2 demo_keys)).
Proof.
  apply (supervisor_completes demo_remote demo_base 2 demo_keys).
  - apply steps_refl.
  - repeat constructor.
Defined.

Lemma supervisor_blocks_without_capacity_witness :
  let w := run demo_remote demo_base 50 (init_world 0 demo_keys) in
  ~ finished w /\ Forall (fun t => t_st t = TInit) (w_tasks w).
Proof.
  apply (supervisor_blocks_without_capacity demo_remote demo_base demo_keys).
  - apply run_steps.
  - discriminate.
Defined.
